(** * webextension-storage: the StorageArea facade of src/index.ts

    A shallow embedding of the [StorageArea] class and of the parts of its
    environment it talks to (the three [browser.storage] areas and the
    [browser.storage.onChanged] event), followed by the properties proved
    about it.

    Modelling conventions.
    - Objects used as dictionaries ([defaults], the items returned by the
      backend, [_accessors], [_listeners], property descriptor maps) are
      finite maps of their own properties; names inherited from
      [Object.prototype] are not part of a dictionary.
    - The class instance is different: its own fields and the methods it
      inherits from the class prototype are kept apart, because
      [_makeProperties] asks [this.hasOwnProperty(key)].
    - An [async] method is a computation over the state; a resolved promise
      is [Ok], a rejected one is [Throw].  No other code runs between the
      backend calls of one method.
    - A call [this.m(...)] inside a method runs the method [m] of the class.
    - Objects and functions are compared by reference; a reference is a
      number handed out by an allocation counter. *)

From Stdlib Require Import ZArith.
From stdpp Require Import base option list gmap strings fin_maps.

Local Open Scope string_scope.
Local Open Scope list_scope.

(** ** JavaScript values *)

Module Js.

Inductive value :=
| VUndefined
| VNull
| VBoolean (b : bool)
| VNumber (z : Z)
| VNaN
| VString (s : string)
| VSymbol (ref : nat)
| VFunction (ref : nat)
| VObject (ref : nat).

#[global] Instance value_eq_dec : EqDecision value.
Proof. solve_decision. Defined.

(** The [typeof] operator. *)
Definition typeof (v : value) : string :=
  match v with
  | VUndefined => "undefined"
  | VNull => "object"
  | VBoolean _ => "boolean"
  | VNumber _ | VNaN => "number"
  | VString _ => "string"
  | VSymbol _ => "symbol"
  | VFunction _ => "function"
  | VObject _ => "object"
  end.

(** Conversion to boolean, as done by [if (v)] and [v || w]. *)
Definition truthy (v : value) : bool :=
  match v with
  | VUndefined | VNull | VNaN => false
  | VBoolean b => b
  | VNumber z => negb (z =? 0)%Z
  | VString s => negb (String.eqb s "")
  | VSymbol _ | VFunction _ | VObject _ => true
  end.

(** Thrown values. *)
Inductive error :=
| Error (message : string)
| TypeError (message : string)
| NotCallable (callee : value)      (* the TypeError of calling a non-function *)
| Raised (v : value).               (* whatever a callback throws *)

Inductive result (A : Type) :=
| Ok (a : A)
| Throw (e : error).
Arguments Ok {A} a.
Arguments Throw {A} e.

(** [o[key]] on a dictionary. *)
Definition index (o : gmap string value) (key : string) : value :=
  match o !! key with
  | Some v => v
  | None => VUndefined
  end.

(** [key in o] on a dictionary. *)
Definition has {K} `{Countable K} {A} (key : K) (o : gmap K A) : bool :=
  bool_decide (is_Some (o !! key)).

(** A [Set]: insertion ordered, no element twice. *)
Definition Set_add (x : value) (s : list value) : list value :=
  if bool_decide (x ∈ s) then s else s ++ [x].

Definition Set_delete (x : value) (s : list value) : list value :=
  filter (λ y, y ≠ x) s.

End Js.
Export Js.

(** ** The class and its environment *)

(** [StorageAreaName]: the handles of [browser.storage]. *)
Inductive StorageAreaName := sync | local | managed.

#[global] Instance StorageAreaName_eq_dec : EqDecision StorageAreaName.
Proof. solve_decision. Defined.


(** [STORAGE_AREAS]: from area name to [browser.storage] handle. *)
Definition STORAGE_AREAS : gmap string StorageAreaName :=
  <["local" := local]> (<["managed" := managed]> (<["sync" := sync]> ∅)).

Record StorageChange := {
  oldValue : option value;
  newValue : option value;
}.

#[global] Instance StorageChange_eq_dec : EqDecision StorageChange.
Proof. solve_decision. Defined.

(** Keys of [_listeners]: a setting name, or the symbol [AllSettings]. *)
Inductive listener_key :=
| AllSettings
| Setting (key : string).

#[global] Instance listener_key_eq_dec : EqDecision listener_key.
Proof. solve_decision. Defined.

#[global] Instance listener_key_countable : Countable listener_key.
Proof.
  refine (inj_countable'
    (λ k, match k with AllSettings => None | Setting s => Some s end)
    (λ o, match o with None => AllSettings | Some s => Setting s end) _).
  by intros [].
Defined.

Module IStorageAccessor.

(** The object built by [_makeAccessor].  Its five function fields are
    closures over [this] and [key] only; they are the functions
    [accessor_get] ... [accessor_removeListener] below applied to the
    object. *)
Record t := {
  ref : nat;               (* identity of the object *)
  key : string;
  default : value;
}.

#[global] Instance eq_dec : EqDecision t.
Proof. solve_decision. Defined.

End IStorageAccessor.

(** A property descriptor made by [_makeProperties]:
    [{ get: () => this.accessor(key), enumerable: true }]. *)
Record PropertyDescriptor := {
  getter_key : string;     (* the [key] captured by the [get] closure *)
  enumerable : bool;
}.

(** What one call on a storage area was. *)
Inductive backend_call :=
| CallGetAll (area : StorageAreaName)
| CallGet (area : StorageAreaName) (key : string)
| CallSet (area : StorageAreaName) (items : gmap string value).

(** One invocation of a listener: [listener(change, key)]. *)
Record invocation := {
  callee : value;
  arg_change : option StorageChange;   (* [None] is [undefined] *)
  arg_key : string;
}.

#[global] Instance invocation_eq_dec : EqDecision invocation.
Proof. solve_decision. Defined.

(** The browser side: contents of the three areas, the handlers subscribed
    to [browser.storage.onChanged], and two logs (calls made on the areas,
    listener invocations), oldest first. *)
Record Browser := {
  storage : StorageAreaName → gmap string value;
  onChanged : list nat;
  backend_calls : list backend_call;
  invoked : list invocation;
  next_ref : nat;
}.

(** The fields of a [StorageArea] instance.  [properties] are the accessor
    properties installed on the instance by [Object.defineProperties]. *)
Record StorageArea := {
  defaults : gmap string value;
  _storage : StorageAreaName;
  _storageName : string;
  _accessors : gmap string IStorageAccessor.t;
  _listeners : gmap listener_key (list value);
  _onChanged_ref : nat;
  properties : gmap string PropertyDescriptor;
}.

Record State := {
  browser : Browser;
  this : StorageArea;
}.

Record IStorageAreaOptions := {
  opt_defaults : gmap string value;
  opt_storageArea : option string;
}.

(** ** State and exception monad *)

Definition M (A : Type) : Type := State → result A * State.

Definition ret {A} (a : A) : M A := λ st, (Ok a, st).

Definition throw {A} (e : error) : M A := λ st, (Throw e, st).

Definition bind {A B} (m : M A) (k : A → M B) : M B :=
  λ st, match m st with
        | (Ok a, st') => k a st'
        | (Throw e, st') => (Throw e, st')
        end.

Declare Scope js_scope.
Delimit Scope js_scope with js.
Notation "x <- m ;; k" := (bind m (λ x, k))
  (at level 100, m at next level, right associativity) : js_scope.
Notation "m ;;; k" := (bind m (λ _, k))
  (at level 100, right associativity) : js_scope.
Local Open Scope js_scope.

Definition read_this : M StorageArea := λ st, (Ok (this st), st).

Definition write_this (f : StorageArea → StorageArea) : M unit :=
  λ st, (Ok tt, {| browser := browser st; this := f (this st) |}).

Definition write_browser (f : Browser → Browser) : M unit :=
  λ st, (Ok tt, {| browser := f (browser st); this := this st |}).

(** A fresh reference for a newly created object or closure. *)
Definition alloc (b : Browser) : nat * Browser :=
  (next_ref b,
   {| storage := storage b; onChanged := onChanged b;
      backend_calls := backend_calls b; invoked := invoked b;
      next_ref := S (next_ref b) |}).

Definition new_ref : M nat :=
  λ st, let '(r, b) := alloc (browser st) in
        (Ok r, {| browser := b; this := this st |}).

(** ** The backend: [Storage.StorageArea] and [browser.storage.onChanged]

    The areas follow the WebExtension storage contract: a read of
    everything returns the whole map, a read of one key returns a map that
    has the key only when it is stored, a write merges the given items into
    the stored ones. *)

Definition log_call (c : backend_call) (b : Browser) : Browser :=
  {| storage := storage b; onChanged := onChanged b;
     backend_calls := backend_calls b ++ [c]; invoked := invoked b;
     next_ref := next_ref b |}.

Definition write_area (area : StorageAreaName) (items : gmap string value)
    (b : Browser) : Browser :=
  {| storage := λ a, if decide (a = area) then items ∪ storage b a
                     else storage b a;
     onChanged := onChanged b;
     backend_calls := backend_calls b; invoked := invoked b;
     next_ref := next_ref b |}.

Definition storage_get_all (area : StorageAreaName) : M (gmap string value) :=
  write_browser (log_call (CallGetAll area)) ;;;
  (λ st, (Ok (storage (browser st) area), st)).

Definition storage_get (area : StorageAreaName) (key : string)
    : M (gmap string value) :=
  write_browser (log_call (CallGet area key)) ;;;
  (λ st, (Ok match storage (browser st) area !! key with
             | Some v => {[ key := v ]}
             | None => ∅
             end, st)).

Definition storage_set (area : StorageAreaName) (items : gmap string value)
    : M unit :=
  write_browser (log_call (CallSet area items)) ;;;
  write_browser (write_area area items).

Definition set_onChanged (hs : list nat) (b : Browser) : Browser :=
  {| storage := storage b; onChanged := hs;
     backend_calls := backend_calls b; invoked := invoked b;
     next_ref := next_ref b |}.

(** [browser.storage.onChanged.addListener]: a handler is kept once. *)
Definition onChanged_addListener (h : nat) (b : Browser) : Browser :=
  set_onChanged (if bool_decide (h ∈ onChanged b) then onChanged b
                 else onChanged b ++ [h]) b.

(** [browser.storage.onChanged.removeListener]. *)
Definition onChanged_removeListener (h : nat) (b : Browser) : Browser :=
  set_onChanged (filter (λ h', h' ≠ h) (onChanged b)) b.

(** ** Field updates of the instance *)

Definition set_accessors (a : gmap string IStorageAccessor.t)
    (s : StorageArea) : StorageArea :=
  {| defaults := defaults s; _storage := _storage s;
     _storageName := _storageName s; _accessors := a;
     _listeners := _listeners s; _onChanged_ref := _onChanged_ref s;
     properties := properties s |}.

Definition set_listeners (l : gmap listener_key (list value))
    (s : StorageArea) : StorageArea :=
  {| defaults := defaults s; _storage := _storage s;
     _storageName := _storageName s; _accessors := _accessors s;
     _listeners := l; _onChanged_ref := _onChanged_ref s;
     properties := properties s |}.

Definition set_properties (p : gmap string PropertyDescriptor)
    (s : StorageArea) : StorageArea :=
  {| defaults := defaults s; _storage := _storage s;
     _storageName := _storageName s; _accessors := _accessors s;
     _listeners := _listeners s; _onChanged_ref := _onChanged_ref s;
     properties := p |}.

(** ** Methods of [StorageArea] *)

(** What [get] resolves to: the items of the area, or one value. *)
Inductive got :=
| Items (items : gmap string value)
| Value (v : value).

(** [get(key?)] *)
Definition get (key : option string) : M got :=
  self <- read_this ;;
  match key with
  | None =>
      r <- storage_get_all (_storage self) ;; ret (Items r)
  | Some k =>
      r <- storage_get (_storage self) k ;; ret (Value (index r k))
  end.

(** [set(key, value?)]: [key] is a setting name or a dictionary. *)
Definition set (key : string + gmap string value) (v : value) : M unit :=
  self <- read_this ;;
  let items :=
    match key with
    | inl k => {[ k := v ]}        (* typeof key === 'string' *)
    | inr m => m
    end in
  storage_set (_storage self) items.

(** The body of the loop of [initDefaults]. *)
Definition initDefaults_step (defaults setItems : gmap string value)
    (key : string) (_ : value) (unsetItems : gmap string value)
    : gmap string value :=
  if has key defaults && negb (has key setItems)
  then <[ key := index defaults key ]> unsetItems
  else unsetItems.

(** [initDefaults()] *)
Definition initDefaults : M unit :=
  r <- get None ;;
  match r with
  | Items setItems =>
      self <- read_this ;;
      let unsetItems :=
        map_fold (initDefaults_step (defaults self) setItems) ∅
                 (defaults self) in
      set (inr unsetItems) VUndefined
  | Value v => throw (TypeError "right-hand side of 'in' is not an object")
  end.

(** [isDefined(key)] *)
Definition isDefined (key : string) : M bool :=
  r <- get (Some key) ;;
  match r with
  | Value v => ret (bool_decide (v ≠ VUndefined))
  | Items _ => ret true
  end.

(** [reset(key)] *)
Definition reset (key : string) : M unit :=
  self <- read_this ;;
  if has key (defaults self)
  then set (inl key) (index (defaults self) key)
  else throw (Error ("No default value for setting: " +:+ key)).

(** [resetAll()] *)
Definition resetAll : M unit :=
  self <- read_this ;;
  set (inr (defaults self)) VUndefined.

(** [_makeAccessor(key)] *)
Definition _makeAccessor (key : string) : M IStorageAccessor.t :=
  self <- read_this ;;
  r <- new_ref ;;
  let accessor :=
    {| IStorageAccessor.ref := r;
       IStorageAccessor.key := key;
       IStorageAccessor.default := index (defaults self) key |} in
  write_this (λ s, set_accessors (<[ key := accessor ]> (_accessors s)) s) ;;;
  ret accessor.

(** [accessor(key)]: an accessor object is truthy, so [||] takes the
    stored one whenever there is one. *)
Definition accessor (key : string) : M IStorageAccessor.t :=
  self <- read_this ;;
  match _accessors self !! key with
  | Some a => ret a
  | None => _makeAccessor key
  end.

(** [_getListenerArgs(a0, a1)]; a missing argument is [VUndefined]. *)
Definition _getListenerArgs (a0 a1 : value) : M (listener_key * value) :=
  if truthy a1 then
    match a0 with
    | VString key => ret (Setting key, a1)
    | _ => throw (TypeError "Expected key to be a string")
    end
  else
    if bool_decide (typeof a0 ≠ "function")
    then throw (TypeError "Expected callback to be a function")
    else ret (AllSettings, a0).

(** [addListener(a0, a1?)] *)
Definition addListener (a0 a1 : value) : M unit :=
  args <- _getListenerArgs a0 a1 ;;
  let '(key, callback) := args in
  write_this (λ s,
    match _listeners s !! key with
    | Some list => set_listeners (<[ key := Set_add callback list ]> (_listeners s)) s
    | None => set_listeners (<[ key := [callback] ]> (_listeners s)) s
    end).

(** [removeListener(a0, a1?)] *)
Definition removeListener (a0 a1 : value) : M unit :=
  args <- _getListenerArgs a0 a1 ;;
  let '(key, callback) := args in
  write_this (λ s,
    match _listeners s !! key with
    | Some list => set_listeners (<[ key := Set_delete callback list ]> (_listeners s)) s
    | None => s
    end).

(** The keys a [for (key in o)] loop visits on [_listeners]: the string
    keys.  A property keyed by a symbol is not enumerated. *)
Definition for_in_keys {A} (o : gmap listener_key A) : list string :=
  omap (λ k, match k with Setting s => Some s | AllSettings => None end)
       (map_to_list o).*1.

(** The body of the loop of [dispose]. *)
Definition dispose_step (l : gmap listener_key (list value)) (key : string)
    : gmap listener_key (list value) :=
  if has (Setting key) l then delete (Setting key) l else l.

(** [dispose()] *)
Definition dispose : M unit :=
  self <- read_this ;;
  write_browser (onChanged_removeListener (_onChanged_ref self)) ;;;
  write_this (λ s,
    set_listeners
      (fold_left dispose_step (for_in_keys (_listeners s)) (_listeners s)) s).

(** The data fields the constructor has assigned on the instance by the
    time it calls [_makeProperties]: the initialised fields
    [_storageName], [_accessors], [_listeners] and [_onChanged], then
    [defaults] and [_storage]. *)
Definition instance_fields : list string :=
  ["_storageName"; "_accessors"; "_listeners"; "_onChanged";
   "defaults"; "_storage"].

(** The methods of the class; they live on [StorageArea.prototype]. *)
Definition prototype_methods : list string :=
  ["constructor"; "dispose"; "get"; "initDefaults"; "isDefined"; "reset";
   "resetAll"; "set"; "accessor"; "addListener"; "removeListener";
   "_getListenerArgs"; "_makeAccessor"; "_makeProperties"].

(** [this.hasOwnProperty(key)] *)
Definition hasOwnProperty (s : StorageArea) (key : string) : bool :=
  bool_decide (key ∈ instance_fields) || has key (properties s).

(** The body of the loop of [_makeProperties]. *)
Definition _makeProperties_step (s : StorageArea) (key : string) (_ : value)
    (descriptors : gmap string PropertyDescriptor)
    : gmap string PropertyDescriptor :=
  if has key (defaults s) && negb (hasOwnProperty s key)
  then <[ key := {| getter_key := key; enumerable := true |} ]> descriptors
  else descriptors.

(** [Object.defineProperties(this, descriptors)] *)
Definition defineProperties (descriptors : gmap string PropertyDescriptor)
    (s : StorageArea) : StorageArea :=
  set_properties (descriptors ∪ properties s) s.

(** [_makeProperties()] *)
Definition _makeProperties (s : StorageArea) : StorageArea :=
  defineProperties (map_fold (_makeProperties_step s) ∅ (defaults s)) s.

(** The constructor, reached through [StorageArea.create(options)]. *)
Definition create (options : IStorageAreaOptions) (b : Browser)
    : result StorageArea * Browser :=
  let '(handler, b) := alloc b in             (* the closure [_onChanged] *)
  let name :=
    match opt_storageArea options with
    | Some s => if truthy (VString s) then s else "local"
    | None => "local"
    end in
  match STORAGE_AREAS !! name with
  | None => (Throw (Error ("Invalid storage area: " +:+ name)), b)
  | Some area =>
      let s := _makeProperties
                 {| defaults := opt_defaults options;
                    _storage := area;
                    _storageName := name;
                    _accessors := ∅;
                    _listeners := ∅;
                    _onChanged_ref := handler;
                    properties := ∅ |} in
      (Ok s, onChanged_addListener handler b)
  end.






(** What the expression [storage.name] finds on an instance: an own data
    field, an own accessor property (whose getter then runs), a method of
    the prototype, or nothing. *)
Inductive member :=
| DataField
| FromGetter (a : IStorageAccessor.t)
| Method (name : string)
| Absent.

Definition read_member (name : string) : M member :=
  self <- read_this ;;
  if bool_decide (name ∈ instance_fields) then ret DataField
  else match properties self !! name with
       | Some d => a <- accessor (getter_key d) ;; ret (FromGetter a)
       | None =>
           if bool_decide (name ∈ prototype_methods) then ret (Method name)
           else ret Absent
       end.

(** ** Change dispatch *)

Section Dispatch.

(** What a function does when it is called as a listener: it returns
    ([None]) or throws a value.  Listeners do not call back into the
    instance. *)
Variable behaviour : nat → option StorageChange → string → option value.

Definition log_invocation (i : invocation) (b : Browser) : Browser :=
  {| storage := storage b; onChanged := onChanged b;
     backend_calls := backend_calls b; invoked := invoked b ++ [i];
     next_ref := next_ref b |}.


(** [listener(change, key)] *)
Definition call_listener (listener : value) (change : option StorageChange)
    (key : string) : M unit :=
  match listener with
  | VFunction f =>
      write_browser (log_invocation
        {| callee := listener; arg_change := change; arg_key := key |}) ;;;
      match behaviour f change key with
      | None => ret tt
      | Some v => throw (Raised v)
      end
  | _ => throw (NotCallable listener)
  end.

(** [changes[key]] on the changes object, given as its properties in
    enumeration order. *)
Definition change_of (changes : list (string * StorageChange)) (key : string)
    : option StorageChange :=
  snd <$> List.find (λ kc, bool_decide (kc.1 = key)) changes.

(** The inner function [_send(key, list)]. *)
Fixpoint _send (changes : list (string * StorageChange)) (key : string)
    (list : list value) : M unit :=
  match list with
  | [] => ret tt
  | listener :: rest =>
      call_listener listener (change_of changes key) key ;;;
      _send changes key rest
  end.

(** One round of the loop [for (let key in changes)]. *)
Definition _onChanged_step (changes : list (string * StorageChange))
    (key : string) : M unit :=
  self <- read_this ;;
  match _listeners self !! Setting key with
  | Some list => _send changes key list
  | None => ret tt
  end ;;;
  self <- read_this ;;
  match _listeners self !! AllSettings with
  | Some list => _send changes key list
  | None => ret tt
  end.

Fixpoint for_each {A} (body : A → M unit) (l : list A) : M unit :=
  match l with
  | [] => ret tt
  | x :: rest => body x ;;; for_each body rest
  end.

(** The handler [_onChanged(changes, areaName)]. *)
Definition _onChanged (changes : list (string * StorageChange))
    (areaName : string) : M unit :=
  self <- read_this ;;
  if bool_decide (areaName ≠ _storageName self) then ret tt
  else for_each (_onChanged_step changes) changes.*1.

(** The browser delivers a change event: every handler subscribed to
    [browser.storage.onChanged] is called.  Only the instance's own
    handler is of interest here. *)
Definition deliver (changes : list (string * StorageChange))
    (areaName : string) : M unit :=
  self <- read_this ;;
  b <- (λ st, (Ok (browser st), st)) ;;
  if bool_decide (_onChanged_ref self ∈ onChanged b)
  then _onChanged changes areaName
  else ret tt.

(** The ways a program can use an instance. *)
Inductive operation :=
| OpGet (key : option string)
| OpSet (key : string + gmap string value) (v : value)
| OpInitDefaults
| OpIsDefined (key : string)
| OpReset (key : string)
| OpResetAll
| OpAccessor (key : string)
| OpAddListener (a0 a1 : value)
| OpRemoveListener (a0 a1 : value)
| OpDispose
| OpReadMember (name : string)
| OpEvent (changes : list (string * StorageChange)) (areaName : string).

Definition forget {A} (m : M A) : M unit := m ;;; ret tt.

Definition run (op : operation) : M unit :=
  match op with
  | OpGet key => forget (get key)
  | OpSet key v => set key v
  | OpInitDefaults => initDefaults
  | OpIsDefined key => forget (isDefined key)
  | OpReset key => reset key
  | OpResetAll => resetAll
  | OpAccessor key => forget (accessor key)
  | OpAddListener a0 a1 => addListener a0 a1
  | OpRemoveListener a0 a1 => removeListener a0 a1
  | OpDispose => dispose
  | OpReadMember name => forget (read_member name)
  | OpEvent changes areaName => deliver changes areaName
  end.

(** The state after an operation, whether it returned or threw. *)
Definition exec (op : operation) (st : State) : State := (run op st).2.

Definition execs (ops : list operation) (st : State) : State :=
  fold_left (λ st op, exec op st) ops st.

(** The states an instance goes through: made by [create] in some
    browser, then used. *)
Inductive reachable : State → Prop :=
| reachable_create options b s b' :
    create options b = (Ok s, b') →
    reachable {| browser := b'; this := s |}
| reachable_exec op st :
    reachable st → reachable (exec op st).

End Dispatch.

(** ** Sample data *)

Definition empty_browser : Browser :=
  {| storage := λ _, ∅; onChanged := []; backend_calls := [];
     invoked := []; next_ref := 0 |}.

Definition with_local (items : gmap string value) : Browser :=
  {| storage := λ a, if decide (a = local) then items else ∅;
     onChanged := []; backend_calls := []; invoked := []; next_ref := 0 |}.

(** The state right after [StorageArea.create(options)] in browser [b];
    a failed construction leaves a dummy instance. *)
Definition created (options : IStorageAreaOptions) (b : Browser) : State :=
  match create options b with
  | (Ok s, b') => {| browser := b'; this := s |}
  | (Throw _, b') =>
      {| browser := b';
         this := {| defaults := ∅; _storage := local; _storageName := "";
                    _accessors := ∅; _listeners := ∅; _onChanged_ref := 0;
                    properties := ∅ |} |}
  end.

Definition defaults_a2_b3 : gmap string value :=
  <["a" := VNumber 2]> (<["b" := VNumber 3]> ∅).

Definition sample_state : State :=
  created {| opt_defaults := defaults_a2_b3; opt_storageArea := None |}
          (with_local {[ "a" := VNumber 1 ]}).


(** ** Dispatch as the specification words it

    For each changed key, in the order of the event: the listeners of that
    key in registration order, then the listeners of all settings in
    registration order; each is called with [changes[key]] and the key. *)

Definition bucket (s : StorageArea) (k : listener_key) : list value :=
  match _listeners s !! k with
  | Some list => list
  | None => []
  end.

Definition planned (changes : list (string * StorageChange)) (key : string)
    (listeners : list value) : list invocation :=
  map (λ l, {| callee := l; arg_change := change_of changes key;
               arg_key := key |}) listeners.

Definition dispatch_plan (s : StorageArea)
    (changes : list (string * StorageChange)) : list invocation :=
  flat_map (λ key, planned changes key (bucket s (Setting key))
                   ++ planned changes key (bucket s AllSettings))
           changes.*1.

(** The state in which the invocations [calls] have been logged. *)
Definition log_invocations (calls : list invocation) (st : State) : State :=
  {| browser :=
       {| storage := storage (browser st); onChanged := onChanged (browser st);
          backend_calls := backend_calls (browser st);
          invoked := invoked (browser st) ++ calls;
          next_ref := next_ref (browser st) |};
     this := this st |}.

Definition completion (e : option error) : result unit :=
  match e with
  | None => Ok tt
  | Some e => Throw e
  end.

Section Perform.

Variable behaviour : nat → option StorageChange → string → option value.

(** Calling the planned listeners one after the other until one throws:
    the invocations that took place, and the exception if any. *)
Fixpoint perform (plan : list invocation) : list invocation * option error :=
  match plan with
  | [] => ([], None)
  | i :: rest =>
      match callee i with
      | VFunction f =>
          match behaviour f (arg_change i) (arg_key i) with
          | None => let '(done, e) := perform rest in (i :: done, e)
          | Some v => ([i], Some (Raised v))
          end
      | v => ([], Some (NotCallable v))
      end
  end.

End Perform.

(** ** Argument shapes of [addListener] and [removeListener]

    The declared shapes are [(callback)] and [(key, callback)] with a
    string key and a function callback; every other shape is malformed. *)
Definition well_formed_arguments (a0 a1 : value) : Prop :=
  (typeof a0 = "function" ∧ a1 = VUndefined)
  ∨ (typeof a0 = "string" ∧ typeof a1 = "function").

(** ** Invariants of an instance in use *)

(** Every stored accessor sits under its own key, carries the default of
    that key, and is an object that has been allocated. *)
Definition accessors_wf (st : State) : Prop :=
  ∀ k a, _accessors (this st) !! k = Some a →
    IStorageAccessor.key a = k
    ∧ IStorageAccessor.default a = index (defaults (this st)) k
    ∧ (IStorageAccessor.ref a < next_ref (browser st))%nat.

(** The getter installed under a name resolves the accessor of that name. *)
Definition properties_wf (s : StorageArea) : Prop :=
  ∀ k d, properties s !! k = Some d → getter_key d = k ∧ enumerable d = true.

(** What an operation may change of the instance: the listeners, and new
    entries in [_accessors]. *)
Definition evolves (s s' : StorageArea) : Prop :=
  defaults s' = defaults s
  ∧ _storage s' = _storage s
  ∧ _storageName s' = _storageName s
  ∧ _onChanged_ref s' = _onChanged_ref s
  ∧ properties s' = properties s
  ∧ _accessors s ⊆ _accessors s'.

(** ** More sample data *)


Definition quiet (_ : nat) (_ : option StorageChange) (_ : string)
    : option value := None.

Definition count_change : StorageChange :=
  {| oldValue := Some (VNumber 0); newValue := Some (VNumber 5) |}.

Definition defaults_enabled_count : gmap string value :=
  <["enabled" := VBoolean false]> (<["count" := VNumber 0]> ∅).

Definition fresh_state : State :=
  created {| opt_defaults := defaults_enabled_count; opt_storageArea := None |}
          empty_browser.

(** [storage.addListener('count', f0); storage.addListener(f1)] *)
Definition listening_state : State :=
  (addListener (VFunction 1) VUndefined
     (addListener (VString "count") (VFunction 0) fresh_state).2).2.

Definition call_of (f : nat) : invocation :=
  {| callee := VFunction f; arg_change := Some count_change;
     arg_key := "count" |}.



(** A schema with a setting named like the field [defaults]. *)
Definition defaults_state : State :=
  created {| opt_defaults := {[ "defaults" := VNumber 1 ]};
             opt_storageArea := None |}
          empty_browser.

(** ** Further notions used in statements *)


Definition is_dispose (op : operation) : bool :=
  match op with
  | OpDispose => true
  | _ => false
  end.

(** The operations that call [set] on the storage area. *)
Definition is_write (op : operation) : bool :=
  match op with
  | OpSet _ _ | OpInitDefaults | OpReset _ | OpResetAll => true
  | _ => false
  end.



(** Every listener set is free of repetitions. *)
Definition listener_sets_NoDup (s : StorageArea) : Prop :=
  ∀ k, NoDup (bucket s k).

(** ** Basic facts *)

Ltac run_m :=
  unfold forget, bind, ret, throw, read_this, write_this, write_browser,
    new_ref, alloc; simpl.

Lemma has_true {K} `{Countable K} {A} (k : K) (o : gmap K A) :
  has k o = true ↔ is_Some (o !! k).
Proof. unfold has. by rewrite bool_decide_eq_true. Qed.

Lemma has_false {K} `{Countable K} {A} (k : K) (o : gmap K A) :
  has k o = false ↔ o !! k = None.
Proof.
  unfold has. rewrite bool_decide_eq_false. by rewrite eq_None_not_Some.
Qed.





(** ** Reading and writing settings *)






(** ** The change handler performs the dispatch plan *)

Section DispatchFacts.

Variable behaviour : nat → option StorageChange → string → option value.

Lemma log_invocations_nil st : log_invocations [] st = st.
Proof.
  destruct st as [[] ?]. unfold log_invocations. simpl.
  by rewrite app_nil_r.
Qed.

Lemma log_invocations_app calls1 calls2 st :
  log_invocations calls2 (log_invocations calls1 st) = log_invocations (calls1 ++ calls2) st.
Proof. unfold log_invocations. simpl. by rewrite app_assoc. Qed.

Lemma perform_app p q :
  perform behaviour (p ++ q)
  = match perform behaviour p with
    | (done, None) =>
        let '(done', e) := perform behaviour q in (done ++ done', e)
    | (done, Some e) => (done, Some e)
    end.
Proof.
  induction p as [|i p IH]; simpl.
  - by destruct (perform behaviour q).
  - destruct (callee i); try done.
    destruct (behaviour _ _ _); [done|].
    rewrite IH. destruct (perform behaviour p) as [d [e|]]; [done|].
    by destruct (perform behaviour q).
Qed.

Lemma _send_performs changes key list st :
  _send behaviour changes key list st
  = (completion (perform behaviour (planned changes key list)).2,
     log_invocations (perform behaviour (planned changes key list)).1 st).
Proof.
  revert st. induction list as [|l list IH]; intros st; simpl.
  - by rewrite log_invocations_nil.
  - unfold call_listener.
    destruct l; run_m; try by rewrite log_invocations_nil.
    destruct (behaviour _ _ _) as [v|]; [done|].
    rewrite IH.
    destruct (perform behaviour (planned changes key list)) as [d e]. simpl.
    f_equal. unfold log_invocations. simpl. by rewrite <- app_assoc.
Qed.

Lemma _onChanged_step_performs changes key st :
  let plan := planned changes key (bucket (this st) (Setting key))
              ++ planned changes key (bucket (this st) AllSettings) in
  _onChanged_step behaviour changes key st
  = (completion (perform behaviour plan).2,
     log_invocations (perform behaviour plan).1 st).
Proof.
  intros plan. subst plan. unfold _onChanged_step, bucket.
  rewrite perform_app. run_m.
  assert (∀ o : option (list value),
    match o with
    | Some list => _send behaviour changes key list
    | None => λ st0, (Ok tt, st0)
    end st
    = (completion (perform behaviour (planned changes key
         match o with Some l => l | None => [] end)).2,
       log_invocations (perform behaviour (planned changes key
         match o with Some l => l | None => [] end)).1 st)) as Hb.
  { intros [l|]; [apply _send_performs|]. simpl.
    by rewrite log_invocations_nil. }
  rewrite Hb.
  destruct (perform behaviour (planned changes key _)) as [d [e|]] eqn:H1;
    simpl; [done|].
  destruct (_listeners (this st) !! AllSettings) as [l|]; simpl.
  - rewrite _send_performs.
    destruct (perform behaviour (planned changes key l)) as [d' e']. simpl.
    by rewrite log_invocations_app.
  - by rewrite app_nil_r.
Qed.

Lemma for_each_step_performs changes keys st :
  let plan := flat_map (λ key,
                planned changes key (bucket (this st) (Setting key))
                ++ planned changes key (bucket (this st) AllSettings)) keys in
  for_each (_onChanged_step behaviour changes) keys st
  = (completion (perform behaviour plan).2,
     log_invocations (perform behaviour plan).1 st).
Proof.
  simpl. revert st. induction keys as [|key keys IH]; intros st; simpl.
  - by rewrite log_invocations_nil.
  - rewrite perform_app. unfold bind at 1.
    rewrite _onChanged_step_performs.
    destruct (perform behaviour (_ ++ _)) as [d [e|]]; simpl; [done|].
    rewrite IH. simpl.
    destruct (perform behaviour (flat_map _ keys)) as [d' e']. simpl.
    by rewrite log_invocations_app.
Qed.

(** The handler, for an event of the instance's own area. *)
Lemma _onChanged_performs changes areaName st :
  areaName = _storageName (this st) →
  _onChanged behaviour changes areaName st
  = (completion (perform behaviour (dispatch_plan (this st) changes)).2,
     log_invocations
       (perform behaviour (dispatch_plan (this st) changes)).1 st).
Proof.
  intros ->. unfold _onChanged. run_m.
  rewrite bool_decide_false by (intros H; by apply H).
  apply for_each_step_performs.
Qed.

Lemma _onChanged_other_area changes areaName st :
  areaName ≠ _storageName (this st) →
  _onChanged behaviour changes areaName st = (Ok tt, st).
Proof.
  intros Hne. unfold _onChanged. run_m. by rewrite bool_decide_true.
Qed.



End DispatchFacts.


(** ** Dispatch order and exceptions *)






(** ** Listener arguments *)

(** C3, as claimed, fails: a string key with a callback that is not a
    function is a malformed shape, yet [addListener] returns and the value
    is registered under the key. *)
Lemma addListener_registers_non_function :
  ¬ well_formed_arguments (VString "count") (VNumber 42)
  ∧ (addListener (VString "count") (VNumber 42) fresh_state).1 = Ok tt
  ∧ _listeners (this fresh_state) !! Setting "count" = None
  ∧ _listeners (this (addListener (VString "count") (VNumber 42)
                        fresh_state).2) !! Setting "count"
    = Some [VNumber 42].
Proof.
  split_and!; try (vm_compute; reflexivity).
  intros [[H _]|[_ H]]; discriminate H.
Qed.

(** C3, amended.  A call with a second argument whose first argument is
    not a string, and a call without second argument whose first argument
    is not a function, throw a [TypeError] from [addListener] and from
    [removeListener] and leave the whole state, listeners included, as it
    was. *)
Theorem listener_arguments_are_checked (a0 a1 : value) (st : State) :
  (truthy a1 = true ∧ typeof a0 ≠ "string")
  ∨ (truthy a1 = false ∧ typeof a0 ≠ "function") →
  ∃ message,
    addListener a0 a1 st = (Throw (TypeError message), st)
    ∧ removeListener a0 a1 st = (Throw (TypeError message), st).
Proof.
  intros [[Ht Hk]|[Ht Hc]]; unfold addListener, removeListener,
    _getListenerArgs; run_m; rewrite Ht.
  - exists "Expected key to be a string". by destruct a0.
  - exists "Expected callback to be a function".
    by rewrite bool_decide_true.
Qed.

Lemma listener_arguments_are_checked_witness :
  (∃ message,
     addListener (VNumber 7) (VFunction 0) fresh_state
     = (Throw (TypeError message), fresh_state)
     ∧ removeListener (VNumber 7) (VFunction 0) fresh_state
       = (Throw (TypeError message), fresh_state))
  ∧ (∃ message,
     addListener (VString "count") VUndefined fresh_state
     = (Throw (TypeError message), fresh_state)
     ∧ removeListener (VString "count") VUndefined fresh_state
       = (Throw (TypeError message), fresh_state)).
Proof.
  split.
  - apply (listener_arguments_are_checked (VNumber 7) (VFunction 0)).
    left. split; [reflexivity | discriminate].
  - apply (listener_arguments_are_checked (VString "count") VUndefined).
    right. split; [reflexivity | discriminate].
Defined.

(** ** Disposal *)

Lemma dispose_loop_keeps (k : listener_key) keys
    (l : gmap listener_key (list value)) :
  (∀ s, s ∈ keys → Setting s ≠ k) →
  fold_left dispose_step keys l !! k = l !! k.
Proof.
  revert l. induction keys as [|s keys IH]; intros l Hk; simpl; [done|].
  rewrite IH by (intros s' Hs'; apply Hk; by apply list_elem_of_further).
  unfold dispose_step. destruct (has (Setting s) l); [|done].
  apply lookup_delete_ne. apply Hk, list_elem_of_here.
Qed.

Lemma dispose_loop_deletes (s : string) keys
    (l : gmap listener_key (list value)) :
  s ∈ keys → fold_left dispose_step keys l !! Setting s = None.
Proof.
  revert l. induction keys as [|s' keys IH]; intros l Hs; simpl.
  - by apply elem_of_nil in Hs.
  - destruct (decide (s ∈ keys)) as [Hin|Hnot]; [by apply IH|].
    apply elem_of_cons in Hs as [->|Hs]; [|done].
    rewrite dispose_loop_keeps.
    2:{ intros s Hs Heq. apply Hnot. by simplify_eq. }
    unfold dispose_step. destruct (has (Setting s') l) eqn:Hh.
    + apply lookup_delete_eq.
    + by apply has_false.
Qed.

Lemma for_in_keys_spec {A} (o : gmap listener_key A) (s : string) :
  s ∈ for_in_keys o ↔ is_Some (o !! Setting s).
Proof.
  unfold for_in_keys. rewrite list_elem_of_omap. split.
  - intros (k & Hk & Hs). destruct k; simplify_eq.
    apply list_elem_of_fmap in Hk as ([k x] & -> & Hin).
    apply elem_of_map_to_list in Hin. eauto.
  - intros [x Hx]. exists (Setting s). split; [|done].
    apply list_elem_of_fmap. exists (Setting s, x). split; [done|].
    by apply elem_of_map_to_list.
Qed.

(** What [dispose] does: the handler leaves the event, every listener set
    under a setting name is deleted, the set of the listeners of all
    settings stays. *)
Lemma dispose_effect (st : State) :
  let st' := (dispose st).2 in
  (dispose st).1 = Ok tt
  ∧ (_onChanged_ref (this st) ∉ onChanged (browser st'))
  ∧ (∀ s, _listeners (this st') !! Setting s = None)
  ∧ _listeners (this st') !! AllSettings = _listeners (this st) !! AllSettings.
Proof.
  unfold dispose. run_m. split_and!; [done| | |].
  - unfold onChanged_removeListener. simpl.
    rewrite list_elem_of_filter. intros [Hne _]. by apply Hne.
  - intros s. destruct (_listeners (this st) !! Setting s) as [x|] eqn:Hs.
    + apply dispose_loop_deletes, for_in_keys_spec. eauto.
    + rewrite dispose_loop_keeps; [done|].
      intros s' Hs' [= ->]. apply for_in_keys_spec in Hs' as [? ?].
      congruence.
  - apply dispose_loop_keeps. intros s _. discriminate.
Qed.

(** After [dispose] the browser no longer reaches the instance: an event
    invokes no listener and changes nothing. *)
Lemma deliver_after_dispose behaviour changes areaName (st : State) :
  deliver behaviour changes areaName (dispose st).2 = (Ok tt, (dispose st).2).
Proof.
  destruct (dispose_effect st) as (_ & Hout & _).
  unfold deliver. run_m. unfold dispose in *. revert Hout. run_m.
  intros Hout. by rewrite bool_decide_false.
Qed.

(** C9, at the failing input [s.addListener(f1); s.dispose()] (with a
    listener of the key ["count"] registered too): the listener set of the
    key is gone, the set registered for all settings is still in
    [_listeners], and the handler, run on the disposed instance, still
    invokes its listener. *)
Theorem dispose_keeps_listeners_of_all_settings :
  let st' := (dispose listening_state).2 in
  _listeners (this listening_state) !! Setting "count" = Some [VFunction 0]
  ∧ _listeners (this st') !! Setting "count" = None
  ∧ _listeners (this st') !! AllSettings = Some [VFunction 1]
  ∧ _listeners (this st') ≠ ∅
  ∧ invoked (browser
      (_onChanged quiet [("count", count_change)] "local" st').2)
    = [call_of 1]
  ∧ deliver quiet [("count", count_change)] "local" st' = (Ok tt, st').
Proof.
  simpl. split_and!; try (vm_compute; reflexivity).
  - intros H. apply (f_equal (λ m, m !! AllSettings)) in H.
    vm_compute in H. discriminate H.
Qed.

(** ** What operations leave alone *)

Lemma evolves_refl s : evolves s s.
Proof. by repeat split. Qed.

Lemma evolves_trans s1 s2 s3 : evolves s1 s2 → evolves s2 s3 → evolves s1 s3.
Proof.
  intros (?&?&?&?&?&?) (?&?&?&?&?&?). repeat split; try congruence.
  by etrans.
Qed.

Lemma evolves_set_listeners l s : evolves s (set_listeners l s).
Proof. by repeat split. Qed.

(** [accessor(key)] returns the stored accessor when there is one, and
    otherwise a new object which it stores under the key. *)
Lemma accessor_effect (key : string) (st : State) :
  match _accessors (this st) !! key with
  | Some a => accessor key st = (Ok a, st)
  | None =>
      let a := {| IStorageAccessor.ref := next_ref (browser st);
                  IStorageAccessor.key := key;
                  IStorageAccessor.default := index (defaults (this st)) key |} in
      (accessor key st).1 = Ok a
      ∧ this (accessor key st).2
        = set_accessors (<[ key := a ]> (_accessors (this st))) (this st)
      ∧ next_ref (browser (accessor key st).2) = S (next_ref (browser st))
    end.
Proof.
  unfold accessor, _makeAccessor. run_m.
  by destruct (_accessors (this st) !! key).
Qed.


Lemma accessor_evolves (key : string) (st : State) :
  evolves (this st) (this (accessor key st).2)
  ∧ (next_ref (browser st) ≤ next_ref (browser (accessor key st).2))%nat
  ∧ (accessors_wf st → accessors_wf (accessor key st).2).
Proof.
  pose proof (accessor_effect key st) as H.
  destruct (_accessors (this st) !! key) as [a|] eqn:Ha.
  - rewrite H. simpl. split_and!; [apply evolves_refl|lia|done].
  - destruct H as (_ & H2 & H3). rewrite H3. split_and!; [|lia|].
    + rewrite H2. repeat split; simpl. by apply insert_subseteq.
    + intros Hwf k a. unfold accessors_wf in Hwf. rewrite H2, H3. simpl.
      destruct (decide (key = k)) as [->|Hne].
      * rewrite lookup_insert_eq. intros [= <-]. simpl. split_and!; [done..|lia].
      * rewrite lookup_insert_ne by done. intros Hk.
        destruct (Hwf _ _ Hk) as (?&?&?). split_and!; [done..|lia].
Qed.

Section Frame.

Variable behaviour : nat → option StorageChange → string → option value.

Lemma deliver_effect changes areaName st :
  ∃ done, (deliver behaviour changes areaName st).2 = log_invocations done st.
Proof.
  unfold deliver. run_m. case_bool_decide.
  - destruct (decide (areaName = _storageName (this st))) as [Heq|Hne].
    + rewrite (_onChanged_performs _ _ _ _ Heq). by eexists.
    + rewrite (_onChanged_other_area _ _ _ _ Hne). exists [].
      by rewrite log_invocations_nil.
  - exists []. by rewrite log_invocations_nil.
Qed.

(** Every operation keeps the configuration of the instance and what is
    in [_accessors], and keeps the accessors well formed. *)
Lemma exec_evolves (op : operation) (st : State) :
  evolves (this st) (this (exec behaviour op st))
  ∧ (next_ref (browser st) ≤ next_ref (browser (exec behaviour op st)))%nat
  ∧ (accessors_wf st → accessors_wf (exec behaviour op st)).
Proof.
  unfold exec.
  destruct op as [key|key v| |key|key| |key|a0 a1|a0 a1| |name|changes areaName];
    simpl.
  - unfold get, storage_get_all, storage_get. run_m.
    destruct key; simpl; (split_and!; [apply evolves_refl|lia|done]).
  - unfold set, storage_set. run_m. split_and!; [apply evolves_refl|lia|done].
  - unfold initDefaults, get, set, storage_get_all, storage_set. run_m.
    split_and!; [apply evolves_refl|lia|done].
  - unfold isDefined, get, storage_get. run_m.
    split_and!; [apply evolves_refl|lia|done].
  - unfold reset, set, storage_set. run_m.
    destruct (has key (defaults (this st))); simpl;
      (split_and!; [apply evolves_refl|lia|done]).
  - unfold resetAll, set, storage_set. run_m.
    split_and!; [apply evolves_refl|lia|done].
  - destruct (accessor_evolves key st) as (H1 & H2 & H3).
    unfold forget, bind, ret. destruct (accessor key st) as [[a|e] st']; done.
  - unfold addListener, _getListenerArgs. run_m.
    destruct (truthy a1); [destruct a0|case_bool_decide]; simpl;
      try (split_and!; [apply evolves_refl|lia|done]).
    + destruct (_listeners (this st) !! Setting s); simpl;
        (split_and!; [apply evolves_set_listeners|lia|done]).
    + destruct (_listeners (this st) !! AllSettings); simpl;
        (split_and!; [apply evolves_set_listeners|lia|done]).
  - unfold removeListener, _getListenerArgs. run_m.
    destruct (truthy a1); [destruct a0|case_bool_decide]; simpl;
      try (split_and!; [apply evolves_refl|lia|done]).
    + destruct (_listeners (this st) !! Setting s); simpl;
        (split_and!; [apply evolves_set_listeners || apply evolves_refl
                     |lia|done]).
    + destruct (_listeners (this st) !! AllSettings); simpl;
        (split_and!; [apply evolves_set_listeners || apply evolves_refl
                     |lia|done]).
  - unfold dispose. run_m.
    split_and!; [apply evolves_set_listeners|lia|done].
  - unfold read_member. run_m. case_bool_decide; simpl.
    { split_and!; [apply evolves_refl|lia|done]. }
    destruct (properties (this st) !! name) as [d|]; simpl.
    + destruct (accessor_evolves (getter_key d) st) as (H1 & H2 & H3).
      destruct (accessor (getter_key d) st) as [[a|e] st']; done.
    + case_bool_decide; simpl; (split_and!; [apply evolves_refl|lia|done]).
  - destruct (deliver_effect changes areaName st) as [done ->].
    split_and!; [apply evolves_refl|simpl; lia|done].
Qed.

Lemma execs_evolves (ops : list operation) (st : State) :
  evolves (this st) (this (execs behaviour ops st))
  ∧ (accessors_wf st → accessors_wf (execs behaviour ops st)).
Proof.
  revert st. induction ops as [|op ops IH]; intros st; simpl.
  - split; [apply evolves_refl|done].
  - destruct (exec_evolves op st) as (H1 & _ & H3).
    destruct (IH (exec behaviour op st)) as (H4 & H5).
    split; [by eapply evolves_trans|auto].
Qed.

End Frame.

(** ** Construction *)

Lemma _makeProperties_loop (s : StorageArea) (m : gmap string value) k :
  m ⊆ defaults s →
  map_fold (_makeProperties_step s) ∅ m !! k
  = match m !! k with
    | Some _ => if hasOwnProperty s k then None
                else Some {| getter_key := k; enumerable := true |}
    | None => None
    end.
Proof.
  apply (map_fold_weak_ind (λ r m, m ⊆ defaults s →
    r !! k = match m !! k with
             | Some _ => if hasOwnProperty s k then None
                         else Some {| getter_key := k; enumerable := true |}
             | None => None
             end)).
  - intros _. by rewrite !lookup_empty.
  - intros i x m' r Hi IH Hsub.
    assert (defaults s !! i = Some x) as Hd.
    { eapply lookup_weaken; [|exact Hsub]. apply lookup_insert_eq. }
    assert (m' ⊆ defaults s) as Hsub'.
    { etrans; [|exact Hsub]. by apply insert_subseteq. }
    unfold _makeProperties_step.
    replace (has i (defaults s)) with true
      by (symmetry; apply has_true; eauto).
    simpl. destruct (decide (i = k)) as [->|Hne].
    + rewrite lookup_insert_eq.
      destruct (hasOwnProperty s k); simpl.
      * rewrite IH by done. by rewrite Hi.
      * by rewrite lookup_insert_eq.
    + rewrite (lookup_insert_ne m') by done.
      destruct (hasOwnProperty s i); simpl; [by apply IH|].
      rewrite lookup_insert_ne by done. by apply IH.
Qed.

(** What the constructor leaves behind. *)
Lemma create_effect options b s b' :
  create options b = (Ok s, b') →
  defaults s = opt_defaults options
  ∧ _accessors s = ∅
  ∧ _listeners s = ∅
  ∧ (_onChanged_ref s ∈ onChanged b')
  ∧ STORAGE_AREAS !! _storageName s = Some (_storage s)
  ∧ ∀ k, properties s !! k
         = match opt_defaults options !! k with
           | Some _ => if bool_decide (k ∈ instance_fields) then None
                       else Some {| getter_key := k; enumerable := true |}
           | None => None
           end.
Proof.
  unfold create. simpl.
  destruct (STORAGE_AREAS !! _) as [area|] eqn:Harea; [|discriminate].
  intros [= <- <-]. simpl. split_and!; try done.
  - unfold onChanged_addListener. simpl. case_bool_decide; [done|].
    apply elem_of_app. right. apply list_elem_of_here.
  - intros k. rewrite (right_id_L ∅ (∪)).
    rewrite _makeProperties_loop by done. simpl.
    unfold hasOwnProperty, has. simpl. rewrite lookup_empty.
    rewrite (bool_decide_false (is_Some None)) by (by intros [? ?]).
    by rewrite orb_false_r.
Qed.



(** ** Accessors *)





(** ** Generated properties *)




(** * Further properties *)

(** ** Construction *)




(** ** Writing and reading back *)

(** X2.  [set(key, value)] makes one write; afterwards [get(key)] resolves
    to the value written, [get] of any other key resolves to what it did
    before, and the other areas hold what they held. *)
Theorem set_then_get (st : State) (key : string) (v : value) :
  let st' := (set (inl key) v st).2 in
  (set (inl key) v st).1 = Ok tt
  ∧ backend_calls (browser st')
    = backend_calls (browser st) ++ [CallSet (_storage (this st)) {[ key := v ]}]
  ∧ (get (Some key) st').1 = Ok (Value v)
  ∧ (∀ k, k ≠ key → (get (Some k) st').1 = (get (Some k) st).1)
  ∧ (∀ a, a ≠ _storage (this st) →
       storage (browser st') a = storage (browser st) a).
Proof.
  unfold set, get, storage_set, storage_get. run_m.
  rewrite decide_True by done. split_and!; try done.
  - rewrite lookup_union, lookup_singleton_eq, union_Some_l.
    unfold index. by rewrite lookup_singleton_eq.
  - intros k Hk. rewrite lookup_union, lookup_singleton_ne by done.
    by rewrite (left_id None _).
  - intros a Ha. by rewrite decide_False.
Qed.

(** X3.  The two forms of [set] agree: [set(key, value)] does what
    [set({[key]: value})] does, and the second argument is ignored when
    the first is a dictionary.  A write of several items replaces the
    stored values of those keys and keeps the others: [get()] then
    resolves to the items written over the items stored before. *)
Theorem set_items_merges (st : State) :
  (∀ key v w, set (inl key) v st = set (inr {[ key := v ]}) w st)
  ∧ (∀ items v, set (inr items) v st = set (inr items) VUndefined st)
  ∧ (∀ items v,
       (get None (set (inr items) v st).2).1
       = Ok (Items (items ∪ storage (browser st) (_storage (this st))))).
Proof.
  split_and!; try done.
  intros items v. unfold set, get, storage_set, storage_get_all. run_m.
  by rewrite decide_True.
Qed.









(** ** Registering and removing listeners *)

Lemma Set_add_elem (x : value) (s : list value) : x ∈ Set_add x s.
Proof.
  unfold Set_add. case_bool_decide; [done|].
  apply elem_of_app. right. apply list_elem_of_here.
Qed.

Lemma Set_add_idem (x : value) (s : list value) :
  Set_add x (Set_add x s) = Set_add x s.
Proof.
  unfold Set_add at 1. by rewrite bool_decide_true by apply Set_add_elem.
Qed.

Lemma Set_add_NoDup (x : value) (s : list value) :
  NoDup s → NoDup (Set_add x s).
Proof.
  intros Hs. unfold Set_add. case_bool_decide as Hx; [done|].
  apply NoDup_app. split_and!; [done| |apply NoDup_singleton].
  intros y Hy Hy'. apply list_elem_of_singleton in Hy' as ->. by apply Hx.
Qed.

Lemma Set_delete_NoDup (x : value) (s : list value) :
  NoDup s → NoDup (Set_delete x s).
Proof. apply NoDup_filter. Qed.

Lemma Set_delete_absent (x : value) (s : list value) :
  x ∉ s → Set_delete x s = s.
Proof.
  intros Hx. unfold Set_delete. induction s as [|y s IH]; [done|].
  apply not_elem_of_cons in Hx as [Hne Hx].
  rewrite filter_cons_True by done. by rewrite IH.
Qed.

Lemma Set_delete_add (x : value) (s : list value) :
  x ∉ s → Set_delete x (Set_add x s) = s.
Proof.
  intros Hx. unfold Set_add. rewrite bool_decide_false by done.
  unfold Set_delete. rewrite filter_app.
  fold (Set_delete x s). rewrite (Set_delete_absent _ _ Hx).
  rewrite filter_cons_False by (intros H; by apply H).
  by rewrite filter_nil, app_nil_r.
Qed.

(** The set a well-formed call works on, and the callback it carries. *)
Lemma listener_args_accepted (a0 a1 : value) (st : State) :
  well_formed_arguments a0 a1 →
  _getListenerArgs a0 a1 st
  = (Ok (match a0 with VString s => Setting s | _ => AllSettings end,
         match a0 with VString _ => a1 | _ => a0 end), st).
Proof.
  intros [[H0 ->]|[H0 H1]]; unfold _getListenerArgs; simpl.
  - rewrite bool_decide_false by (intros H; by apply H).
    by destruct a0.
  - destruct a0; try discriminate H0.
    by destruct a1; try discriminate H1.
Qed.

Lemma bucket_set_listeners_eq k l ls s :
  bucket (set_listeners (<[ k := l ]> ls) s) k = l.
Proof. unfold bucket. simpl. by rewrite lookup_insert_eq. Qed.

Lemma bucket_set_listeners_ne k k' l s :
  k ≠ k' →
  bucket (set_listeners (<[ k := l ]> (_listeners s)) s) k' = bucket s k'.
Proof. intros Hne. unfold bucket. simpl. by rewrite lookup_insert_ne. Qed.

(** What a well-formed [addListener] does. *)
Lemma addListener_effect (a0 a1 : value) (st : State) :
  well_formed_arguments a0 a1 →
  let k := match a0 with VString s => Setting s | _ => AllSettings end in
  let callback := match a0 with VString _ => a1 | _ => a0 end in
  addListener a0 a1 st
  = (Ok tt,
     {| browser := browser st;
        this := set_listeners
                  (<[ k := Set_add callback (bucket (this st) k) ]>
                     (_listeners (this st))) (this st) |}).
Proof.
  intros Hwf k callback. unfold addListener. unfold bind at 1.
  rewrite (listener_args_accepted _ _ _ Hwf). fold k callback.
  unfold write_this, bucket. simpl.
  by destruct (_listeners (this st) !! k).
Qed.

(** What a well-formed [removeListener] does to the sets. *)
Lemma removeListener_effect (a0 a1 : value) (st : State) :
  well_formed_arguments a0 a1 →
  let k := match a0 with VString s => Setting s | _ => AllSettings end in
  let callback := match a0 with VString _ => a1 | _ => a0 end in
  (removeListener a0 a1 st).1 = Ok tt
  ∧ browser (removeListener a0 a1 st).2 = browser st
  ∧ bucket (this (removeListener a0 a1 st).2) k
    = Set_delete callback (bucket (this st) k)
  ∧ (∀ k', k ≠ k' →
       bucket (this (removeListener a0 a1 st).2) k' = bucket (this st) k').
Proof.
  intros Hwf k callback. unfold removeListener. unfold bind at 1 2 3 4.
  rewrite (listener_args_accepted _ _ _ Hwf). fold k callback.
  unfold write_this. simpl. unfold bucket at 2.
  destruct (_listeners (this st) !! k) as [l|] eqn:Hl.
  - split_and!; [done|done|apply bucket_set_listeners_eq|].
    intros k' Hk. by apply bucket_set_listeners_ne.
  - split_and!; [done|done| |done].
    unfold bucket. by rewrite Hl.
Qed.

(** X9.  Registering a callback a second time changes nothing: the second
    [addListener] with the same arguments ends as the first did and leaves
    the state as the first left it, so the callback is in its set once. *)
Theorem addListener_twice (a0 a1 : value) (st : State) :
  addListener a0 a1 (addListener a0 a1 st).2 = addListener a0 a1 st.
Proof.
  unfold addListener, _getListenerArgs. run_m.
  destruct (truthy a1) eqn:Ht.
  - destruct a0; try done. simpl.
    destruct (_listeners (this st) !! Setting s) as [l|]; simpl;
      rewrite lookup_insert_eq; simpl; unfold set_listeners; simpl;
      rewrite insert_insert_eq.
    + by rewrite Set_add_idem.
    + unfold Set_add. by rewrite bool_decide_true by apply list_elem_of_here.
  - case_bool_decide; [done|]. simpl.
    destruct (_listeners (this st) !! AllSettings) as [l|]; simpl;
      rewrite lookup_insert_eq; simpl; unfold set_listeners; simpl;
      rewrite insert_insert_eq.
    + by rewrite Set_add_idem.
    + unfold Set_add. by rewrite bool_decide_true by apply list_elem_of_here.
Qed.





Lemma dispatch_plan_ext (s s' : StorageArea) changes :
  (∀ k, bucket s' k = bucket s k) →
  dispatch_plan s' changes = dispatch_plan s changes.
Proof.
  intros Hb. unfold dispatch_plan.
  induction (changes.*1) as [|key keys IH]; simpl; [done|].
  by rewrite IH, !Hb.
Qed.

(** X12.  Registering a callback that was not in its set and removing it
    again brings every set back to what it was, so any later event is
    dispatched as it would have been without the two calls. *)
Theorem addListener_then_removeListener (a0 a1 : value) (st : State) :
  well_formed_arguments a0 a1 →
  let k := match a0 with VString s => Setting s | _ => AllSettings end in
  let callback := match a0 with VString _ => a1 | _ => a0 end in
  callback ∉ bucket (this st) k →
  let st' := (removeListener a0 a1 (addListener a0 a1 st).2).2 in
  (∀ k', bucket (this st') k' = bucket (this st) k')
  ∧ (∀ changes,
       dispatch_plan (this st') changes = dispatch_plan (this st) changes).
Proof.
  intros Hwf k callback Hnew st'.
  assert (∀ k', bucket (this st') k' = bucket (this st) k') as Hb.
  { intros k'. subst st'.
    destruct (removeListener_effect _ _ (addListener a0 a1 st).2 Hwf)
      as (_ & _ & H3 & H4).
    fold k callback in H3, H4.
    rewrite (addListener_effect _ _ _ Hwf) in H3, H4 |- *.
    fold k callback in H3, H4 |- *. simpl in *.
    destruct (decide (k = k')) as [<-|Hne].
    - rewrite H3, bucket_set_listeners_eq. by apply Set_delete_add.
    - rewrite H4 by done. by apply bucket_set_listeners_ne. }
  split; [exact Hb|]. intros changes. by apply dispatch_plan_ext.
Qed.

Lemma addListener_then_removeListener_witness :
  dispatch_plan
    (this (removeListener (VFunction 9) VUndefined
             (addListener (VFunction 9) VUndefined listening_state).2).2)
    [("count", count_change)]
  = [call_of 0; call_of 1].
Proof.
  destruct (addListener_then_removeListener (VFunction 9) VUndefined
              listening_state) as (_ & H).
  - left. split; reflexivity.
  - apply (bool_decide_unpack _). vm_compute. exact I.
  - rewrite H. reflexivity.
Defined.

(** ** What each operation touches *)

Lemma accessor_frame (key : string) (st : State) :
  _listeners (this (accessor key st).2) = _listeners (this st)
  ∧ onChanged (browser (accessor key st).2) = onChanged (browser st)
  ∧ storage (browser (accessor key st).2) = storage (browser st)
  ∧ (_accessors (this (accessor key st).2) = _accessors (this st)
     ∨ _accessors (this st) !! key = None
       ∧ _accessors (this (accessor key st).2)
         = <[ key := {| IStorageAccessor.ref := next_ref (browser st);
                        IStorageAccessor.key := key;
                        IStorageAccessor.default :=
                          index (defaults (this st)) key |} ]>
             (_accessors (this st))).
Proof.
  unfold accessor, _makeAccessor. run_m.
  destruct (_accessors (this st) !! key) eqn:Ha; simpl;
    split_and!; try done; [by left|by right].
Qed.

Lemma listener_sets_NoDup_insert k l (s : StorageArea) :
  NoDup l → listener_sets_NoDup s →
  listener_sets_NoDup (set_listeners (<[ k := l ]> (_listeners s)) s).
Proof.
  intros Hl Hs k'. destruct (decide (k = k')) as [<-|Hne].
  - by rewrite bucket_set_listeners_eq.
  - rewrite bucket_set_listeners_ne by done. apply Hs.
Qed.

Lemma listener_sets_NoDup_lookup k l (s : StorageArea) :
  listener_sets_NoDup s → _listeners s !! k = Some l → NoDup l.
Proof. intros Hs Hl. specialize (Hs k). unfold bucket in Hs. by rewrite Hl in Hs. Qed.

Section FrameFacts.

Variable behaviour : nat → option StorageChange → string → option value.

Ltac untouched := split_and!; [done | done | done | done | by left].

(** Per operation: which handlers are subscribed, what is stored, the
    listener sets and the accessors. *)
Lemma exec_frame (op : operation) (st : State) :
  let st' := exec behaviour op st in
  (is_dispose op = false → onChanged (browser st') = onChanged (browser st))
  ∧ (∀ h, h ∈ onChanged (browser st') → h ∈ onChanged (browser st))
  ∧ (is_write op = false → storage (browser st') = storage (browser st))
  ∧ (listener_sets_NoDup (this st) → listener_sets_NoDup (this st'))
  ∧ (_accessors (this st') = _accessors (this st)
     ∨ ∃ key,
         _accessors (this st) !! key = None
         ∧ _accessors (this st')
           = <[ key := {| IStorageAccessor.ref := next_ref (browser st);
                          IStorageAccessor.key := key;
                          IStorageAccessor.default :=
                            index (defaults (this st)) key |} ]>
               (_accessors (this st))).
Proof.
  unfold exec.
  destruct op as [key|key v| |key|key| |key|a0 a1|a0 a1| |name|changes areaName];
    simpl.
  - unfold get, storage_get_all, storage_get. run_m.
    destruct key; simpl; untouched.
  - unfold set, storage_set. run_m. untouched.
  - unfold initDefaults, get, set, storage_get_all, storage_set. run_m.
    untouched.
  - unfold isDefined, get, storage_get. run_m. untouched.
  - unfold reset, set, storage_set. run_m.
    destruct (has key (defaults (this st))); simpl; untouched.
  - unfold resetAll, set, storage_set. run_m. untouched.
  - destruct (accessor_frame key st) as (H1 & H2 & H3 & H4).
    unfold forget, bind, ret.
    destruct (accessor key st) as [[a|e] st']; simpl in *;
      (split_and!; [done|by rewrite H2|done| |]).
    + intros Hn k. unfold bucket. rewrite H1. apply Hn.
    + destruct H4 as [?|[? ?]]; [by left|right; eauto].
    + intros Hn k. unfold bucket. rewrite H1. apply Hn.
    + destruct H4 as [?|[? ?]]; [by left|right; eauto].
  - unfold addListener, _getListenerArgs. run_m.
    destruct (truthy a1); [destruct a0|case_bool_decide]; simpl;
      try untouched.
    + destruct (_listeners (this st) !! Setting s) as [l|] eqn:Hl; simpl;
        (split_and!; [done|done|done| |by left]); intros Hn;
        apply listener_sets_NoDup_insert; try done.
      * apply Set_add_NoDup. by eapply listener_sets_NoDup_lookup.
      * apply NoDup_singleton.
    + destruct (_listeners (this st) !! AllSettings) as [l|] eqn:Hl; simpl;
        (split_and!; [done|done|done| |by left]); intros Hn;
        apply listener_sets_NoDup_insert; try done.
      * apply Set_add_NoDup. by eapply listener_sets_NoDup_lookup.
      * apply NoDup_singleton.
  - unfold removeListener, _getListenerArgs. run_m.
    destruct (truthy a1); [destruct a0|case_bool_decide]; simpl;
      try untouched.
    + destruct (_listeners (this st) !! Setting s) as [l|] eqn:Hl; simpl;
        [|untouched].
      split_and!; [done|done|done| |by left]. intros Hn.
      apply listener_sets_NoDup_insert; try done.
      apply Set_delete_NoDup. by eapply listener_sets_NoDup_lookup.
    + destruct (_listeners (this st) !! AllSettings) as [l|] eqn:Hl; simpl;
        [|untouched].
      split_and!; [done|done|done| |by left]. intros Hn.
      apply listener_sets_NoDup_insert; try done.
      apply Set_delete_NoDup. by eapply listener_sets_NoDup_lookup.
  - destruct (dispose_effect st) as (_ & _ & Hs & Ha).
    revert Hs Ha. unfold dispose. run_m. intros Hs Ha.
    split_and!; [done| |done| |by left].
    + intros h. unfold onChanged_removeListener. simpl.
      rewrite list_elem_of_filter. by intros [_ ?].
    + intros Hn k. unfold bucket. simpl. destruct k as [|s].
      * rewrite Ha. apply (Hn AllSettings).
      * rewrite Hs. apply NoDup_nil_2.
  - unfold read_member. run_m. case_bool_decide; simpl; [untouched|].
    destruct (properties (this st) !! name) as [d|]; simpl.
    + destruct (accessor_frame (getter_key d) st) as (H1 & H2 & H3 & H4).
      destruct (accessor (getter_key d) st) as [[a|e] st']; simpl in *;
        (split_and!; [done|by rewrite H2|done| |]).
      * intros Hn k. unfold bucket. rewrite H1. apply Hn.
      * destruct H4 as [?|[? ?]]; [by left|right; eauto].
      * intros Hn k. unfold bucket. rewrite H1. apply Hn.
      * destruct H4 as [?|[? ?]]; [by left|right; eauto].
    + case_bool_decide; simpl; untouched.
  - destruct (deliver_effect behaviour changes areaName st) as [done ->].
    simpl. untouched.
Qed.

End FrameFacts.

(** ** Invariants of an instance in use *)

Section Lifecycle.

Variable behaviour : nat → option StorageChange → string → option value.


Lemma reachable_listener_sets st :
  reachable behaviour st → listener_sets_NoDup (this st).
Proof.
  induction 1 as [options b s b' Hc|op st _ IH].
  - destruct (create_effect _ _ _ _ Hc) as (_ & _ & Hl & _).
    intros k. unfold bucket. simpl. rewrite Hl, lookup_empty.
    apply NoDup_nil_2.
  - by apply exec_frame.
Qed.


End Lifecycle.

(** X13.  On an instance in use no listener set holds a callback twice,
    so for one changed key a set contributes each of its callbacks once to
    the dispatch. *)
Theorem listener_sets_have_no_repetition
    (behaviour : nat → option StorageChange → string → option value)
    (st : State) :
  reachable behaviour st →
  ∀ k, NoDup (bucket (this st) k)
       ∧ ∀ changes key, NoDup (planned changes key (bucket (this st) k)).
Proof.
  intros Hr k. pose proof (reachable_listener_sets _ _ Hr k) as Hn.
  split; [done|]. intros changes key. unfold planned.
  induction Hn as [|x l Hx Hl IH]; simpl; constructor; [|done].
  rewrite list_elem_of_In, in_map_iff. intros (y & [= ->] & Hy).
  by apply Hx, list_elem_of_In.
Qed.

(** X14.  Only [set], [reset], [resetAll] and [initDefaults] change what
    the areas store: after any sequence of the other operations every
    area holds what it held. *)
Theorem storage_changed_only_by_writes
    (behaviour : nat → option StorageChange → string → option value)
    (ops : list operation) (st : State) :
  forallb (λ op, negb (is_write op)) ops = true →
  storage (browser (execs behaviour ops st)) = storage (browser st).
Proof.
  revert st. induction ops as [|op ops IH]; intros st; simpl; [done|].
  intros [Hop Hops]%andb_prop. rewrite IH by done.
  apply exec_frame. by apply negb_true_iff.
Qed.

(** X15.  Once [dispose()] has run, the instance stays cut off from the
    change event whatever is done with it afterwards: an event delivered
    by the browser invokes no listener and changes nothing, also for
    listeners registered after the disposal. *)
Theorem disposed_stays_detached
    (behaviour : nat → option StorageChange → string → option value)
    (st : State) (ops : list operation)
    (changes : list (string * StorageChange)) (areaName : string) :
  let st' := execs behaviour ops (dispose st).2 in
  deliver behaviour changes areaName st' = (Ok tt, st').
Proof.
  intros st'.
  assert (_onChanged_ref (this st') ∉ onChanged (browser st')) as Hout.
  { subst st'. destruct (dispose_effect st) as (_ & Hout & _).
    assert (_onChanged_ref (this (dispose st).2) = _onChanged_ref (this st))
      as Href by (unfold dispose; by run_m).
    rewrite <- Href in Hout. clear Href.
    generalize dependent ((dispose st).2). clear st.
    induction ops as [|op ops IH]; intros st Hout; simpl; [done|].
    apply IH.
    destruct (exec_evolves behaviour op st) as ((_&_&_&->&_) & _).
    intros Hin. by apply exec_frame in Hin. }
  unfold deliver. run_m. by rewrite bool_decide_false.
Qed.

(** X16.  From construction on, and as long as [dispose()] is not called,
    the handler stays subscribed: an event delivered by the browser is
    handled by [_onChanged]. *)
Theorem subscribed_until_disposed
    (behaviour : nat → option StorageChange → string → option value)
    (options : IStorageAreaOptions)
    (b b' : Browser) (s : StorageArea) (ops : list operation)
    (changes : list (string * StorageChange)) (areaName : string) :
  create options b = (Ok s, b') →
  forallb (λ op, negb (is_dispose op)) ops = true →
  let st := execs behaviour ops {| browser := b'; this := s |} in
  deliver behaviour changes areaName st
  = _onChanged behaviour changes areaName st.
Proof.
  intros Hc Hops st.
  assert (_onChanged_ref (this st) ∈ onChanged (browser st)) as Hin.
  { subst st. destruct (create_effect _ _ _ _ Hc) as (_&_&_&Hin&_).
    change (_onChanged_ref s) with
      (_onChanged_ref (this {| browser := b'; this := s |})) in Hin.
    change b' with (browser {| browser := b'; this := s |}) in Hin at 2.
    revert Hin Hops. generalize {| browser := b'; this := s |}. clear.
    intros st Hin Hops. revert st Hin.
    induction ops as [|op ops IH]; intros st Hin; simpl; [done|].
    simpl in Hops. apply andb_prop in Hops as [Hop Hops]. apply IH; [done|].
    destruct (exec_evolves behaviour op st) as ((_&_&_&->&_) & _).
    destruct (exec_frame behaviour op st) as (Hsame & _).
    rewrite Hsame; [done|]. by apply negb_true_iff. }
  unfold deliver. run_m. by rewrite bool_decide_true.
Qed.

(** X22.  No operation changes the configuration of an instance: the
    defaults, the area it works on, and the accessor properties installed
    by the constructor stay what they are. *)
Theorem configuration_never_changes
    (behaviour : nat → option StorageChange → string → option value)
    (ops : list operation) (st : State) :
  let st' := execs behaviour ops st in
  defaults (this st') = defaults (this st)
  ∧ _storage (this st') = _storage (this st)
  ∧ _storageName (this st') = _storageName (this st)
  ∧ properties (this st') = properties (this st).
Proof.
  destruct (execs_evolves behaviour ops st) as [(H1&H2&H3&_&H5&_) _].
  by simpl.
Qed.





Lemma listener_sets_have_no_repetition_witness :
  NoDup (bucket (this listening_state) (Setting "count"))
  ∧ NoDup (bucket (this listening_state) AllSettings).
Proof.
  assert (reachable quiet listening_state) as Hr.
  { apply (reachable_exec quiet (OpAddListener (VFunction 1) VUndefined)).
    apply (reachable_exec quiet
             (OpAddListener (VString "count") (VFunction 0))).
    apply (reachable_create quiet
             {| opt_defaults := defaults_enabled_count;
                opt_storageArea := None |}
             empty_browser (this fresh_state) (browser fresh_state)).
    reflexivity. }
  split.
  - apply (listener_sets_have_no_repetition quiet listening_state Hr).
  - apply (listener_sets_have_no_repetition quiet listening_state Hr).
Defined.

Lemma storage_changed_only_by_writes_witness :
  storage (browser (execs quiet
             [OpGet None; OpIsDefined "b"; OpAccessor "a"; OpDispose]
             sample_state))
  = storage (browser sample_state).
Proof.
  apply (storage_changed_only_by_writes quiet
           [OpGet None; OpIsDefined "b"; OpAccessor "a"; OpDispose]
           sample_state).
  reflexivity.
Defined.

Lemma subscribed_until_disposed_witness :
  deliver quiet [("count", count_change)] "local"
    (execs quiet [OpAddListener (VString "count") (VFunction 0);
                  OpAddListener (VFunction 1) VUndefined] fresh_state)
  = _onChanged quiet [("count", count_change)] "local"
      (execs quiet [OpAddListener (VString "count") (VFunction 0);
                    OpAddListener (VFunction 1) VUndefined] fresh_state).
Proof.
  apply (subscribed_until_disposed quiet
           {| opt_defaults := defaults_enabled_count;
              opt_storageArea := None |}
           empty_browser (browser fresh_state) (this fresh_state)).
  - reflexivity.
  - reflexivity.
Defined.




(** ** Disposal, once more *)

Lemma for_in_keys_nil {A} (o : gmap listener_key A) :
  (∀ s, o !! Setting s = None) → for_in_keys o = [].
Proof.
  intros Hnone. destruct (for_in_keys o) as [|s l] eqn:Hk; [done|].
  assert (s ∈ for_in_keys o) as Hs by (rewrite Hk; apply list_elem_of_here).
  apply for_in_keys_spec in Hs as [x Hx]. by rewrite Hnone in Hx.
Qed.

Lemma filter_twice {A} (P : A → Prop) `{∀ x, Decision (P x)} (l : list A) :
  filter P (filter P l) = filter P l.
Proof.
  induction l as [|x l IH]; [done|].
  destruct (decide (P x)).
  - rewrite !filter_cons_True by done. by rewrite IH.
  - by rewrite filter_cons_False by done.
Qed.

(** X17.  A second [dispose()] returns and changes nothing. *)
Theorem dispose_twice (st : State) :
  dispose (dispose st).2 = (Ok tt, (dispose st).2).
Proof.
  destruct (dispose_effect st) as (_ & _ & Hs & _).
  revert Hs. unfold dispose. run_m. intros Hs.
  rewrite (for_in_keys_nil _ Hs). simpl.
  unfold onChanged_removeListener, set_onChanged, set_listeners. simpl.
  by rewrite filter_twice.
Qed.

(** ** Who is invoked *)




